(** * Signup form: state management and submission lifecycle

    A shallow embedding of [frontend/src/components/Signup.jsx].

    The component keeps one piece of React state, [form], a reference to a
    JavaScript object with the properties [email], [password] and [name].
    Three [<input>] elements display one property each and replace the
    whole object on every change ([setForm({ ...form, k: text })]); the
    [<form>]'s [onSubmit] handler calls [e.preventDefault()] and then
    [console.log('Signing up with:', form)].

    JavaScript objects live in a heap and are passed by reference, so the
    model has an explicit heap of objects, a cell for the [useState] hook,
    and an ordered trace of the calls made to the platform.  Handlers are
    closures over the [form] of the render that created them; the model
    keeps the rendered element tree (with its closures) next to the world
    and re-renders the way React does. *)

From stdpp Require Import gmap strings list.

Open Scope string_scope.
Open Scope list_scope.

(** ** JavaScript values, heap and platform calls *)

(** An object whose properties hold strings; reading an absent property
    gives [undefined], here [None]. *)
Abbreviation obj := (gmap string string).

Abbreviation loc := nat.

Inductive val :=
  | VStr (s : string)
  | VRef (l : loc).

(** Calls that leave the component, in the order they happen.  [Navigate]
    is the browser's default action for a submit event (page reload). *)
Inductive effect :=
  | PreventDefault
  | ConsoleLog (args : list val)
  | Navigate.

Record World := mkWorld {
  heap : list obj;          (* object at address [l] is [heap !! l] *)
  hook : option loc;        (* the [useState] cell; [None] before mount *)
  effects : list effect     (* oldest first *)
}.

Definition empty_world : World :=
  {| heap := []; hook := None; effects := [] |}.

(** ** State-and-failure monad for JavaScript statements *)

Definition M (A : Type) : Type := World → option (A * World).

Definition ret {A} (a : A) : M A := λ w, Some (a, w).

Definition bind {A B} (c : M A) (k : A → M B) : M B :=
  λ w, match c w with
       | Some (a, w') => k a w'
       | None => None
       end.

Notation "x <~ c ;; k" := (bind c (λ x, k))
  (at level 20, c at level 99, k at level 200, only parsing).

(** An object literal allocates a fresh object. *)
Definition new_object (o : obj) : M loc :=
  λ w, Some (length (heap w),
             {| heap := heap w ++ [o]; hook := hook w; effects := effects w |}).

(** Following a reference; a dangling reference is a failure. *)
Definition deref (l : loc) : M obj :=
  λ w, match heap w !! l with
       | Some o => Some (o, w)
       | None => None
       end.

(** [r.k] *)
Definition get_prop (r : loc) (k : string) : M (option string) :=
  o <~ deref r ;; ret (o !! k).

(** [{ ...r, k: v }]: a new object with the properties of [r], and [k]
    set to [v]. *)
Definition spread_with (r : loc) (k v : string) : M loc :=
  o <~ deref r ;; new_object (<[k := v]> o).

Definition emit (x : effect) : M unit :=
  λ w, Some (tt, {| heap := heap w; hook := hook w;
                    effects := effects w ++ [x] |}).

Definition console_log (args : list val) : M unit := emit (ConsoleLog args).

(** ** React: the state hook *)

(** [useState(init)]: the first render stores [init]; later renders ignore
    it and return the stored state. *)
Definition useState (init : loc) : M loc :=
  λ w, match hook w with
       | Some l => Some (l, w)
       | None => Some (init, {| heap := heap w; hook := Some init;
                                effects := effects w |})
       end.

Definition setForm (l : loc) : M unit :=
  λ w, Some (tt, {| heap := heap w; hook := Some l; effects := effects w |}).

(** ** DOM events *)

(** A change event; the handlers read [e.target.value] only. *)
Record ChangeEvent := { target_value : string }.

(** A submit event; [preventDefault] sets [defaultPrevented]. *)
Record SubmitEvent := { timeStamp : nat; defaultPrevented : bool }.

Definition preventDefault (e : SubmitEvent) : M SubmitEvent :=
  _ <~ emit PreventDefault ;;
  ret {| timeStamp := timeStamp e; defaultPrevented := true |}.

(** ** The component *)

(** The three [<input>] elements of the form. *)
Inductive Field := Name | Email | Password.

Record InputProps := {
  input_type : string;
  placeholder : string;
  value : option string;
  onChange : ChangeEvent → M unit
}.

Record Rendered := {
  onSubmit : SubmitEvent → M SubmitEvent;
  inputs : Field → InputProps
}.

(** Lines 6-10. *)
Definition handleSubmit (form : loc) (e : SubmitEvent) : M SubmitEvent :=
  e' <~ preventDefault e ;;
  _ <~ console_log [VStr "Signing up with:"; VRef form] ;;
  ret e'.

(** Lines 12-52, built from the values read from [form] during the render. *)
Definition elements (form : loc) (v_name v_email v_password : option string)
  : Rendered :=
  {| onSubmit := handleSubmit form;
     inputs := λ f,
       match f with
       | Name =>
           {| input_type := "text"; placeholder := "Name"; value := v_name;
              onChange := λ e,
                o <~ spread_with form "name" (target_value e) ;; setForm o |}
       | Email =>
           {| input_type := "email"; placeholder := "Email"; value := v_email;
              onChange := λ e,
                o <~ spread_with form "email" (target_value e) ;; setForm o |}
       | Password =>
           {| input_type := "password"; placeholder := "Password";
              value := v_password;
              onChange := λ e,
                o <~ spread_with form "password" (target_value e) ;;
                setForm o |}
       end |}.

(** The object literal of line 4. *)
Definition init_form : obj :=
  {[ "email" := ""; "password" := ""; "name" := "" ]}.

(** Lines 3-53.  The argument of [useState] is evaluated on every render. *)
Definition Signup : M Rendered :=
  init <~ new_object init_form ;;
  form <~ useState init ;;
  v_name <~ get_prop form "name" ;;
  v_email <~ get_prop form "email" ;;
  v_password <~ get_prop form "password" ;;
  ret (elements form v_name v_email v_password).

(** ** The running application *)

Record App := { world : World; view : Rendered }.

Definition render (w : World) : option App :=
  match Signup w with
  | Some (r, w') => Some {| world := w'; view := r |}
  | None => None
  end.

Definition mount : option App := render empty_world.

(** The browser's default action for a submit event: the page is loaded
    again, so the heap and the component's state are lost. *)
Definition navigate (w : World) : option App :=
  render {| heap := []; hook := None; effects := effects w ++ [Navigate] |}.

Inductive Event :=
  | Change (f : Field) (e : ChangeEvent)
  | Submit (e : SubmitEvent).

(** One event, handled to completion.  A change handler calls [setForm]
    with a fresh object, so React renders again; the submit handler sets
    no state, so the rendered tree stays, unless the default action runs. *)
Definition dispatch (ev : Event) (a : App) : option App :=
  match ev with
  | Change f e =>
      match onChange (inputs (view a) f) e (world a) with
      | Some (_, w') => render w'
      | None => None
      end
  | Submit e =>
      match onSubmit (view a) e (world a) with
      | Some (e', w') =>
          if defaultPrevented e'
          then Some {| world := w'; view := view a |}
          else navigate w'
      | None => None
      end
  end.

Fixpoint run (evs : list Event) (a : App) : option App :=
  match evs with
  | [] => Some a
  | ev :: evs' =>
      match dispatch ev a with
      | Some a' => run evs' a'
      | None => None
      end
  end.

Definition reachable (a : App) : Prop :=
  ∃ a0 evs, mount = Some a0 ∧ run evs a0 = Some a.

(** ** Observations *)

(** The property of [form] that an input displays and writes. *)
Definition key (f : Field) : string :=
  match f with
  | Name => "name"
  | Email => "email"
  | Password => "password"
  end.

Definition known_keys : gset string := {[ "name"; "email"; "password" ]}.

(** The current form state: the object the hook refers to. *)
Definition FormState_get (a : App) : option obj :=
  match hook (world a) with
  | Some l => heap (world a) !! l
  | None => None
  end.

(** What the [f] input shows. *)
Definition displayed (a : App) (f : Field) : option string :=
  value (inputs (view a) f).

(** The effects that [a'] has on top of those of [a]. *)
Definition since (a a' : App) : list effect :=
  drop (length (effects (world a))) (effects (world a')).

Definition is_log (x : effect) : bool :=
  match x with ConsoleLog _ => true | _ => false end.

Definition is_navigate (x : effect) : bool :=
  match x with Navigate => true | _ => false end.

Fixpoint count (p : effect → bool) (xs : list effect) : nat :=
  match xs with
  | [] => 0
  | x :: xs' => (if p x then 1 else 0) + count p xs'
  end.

(** What the console is given: a string, or the object a reference leads
    to in the heap [h]. *)
Inductive seen :=
  | SStr (s : string)
  | SObj (o : obj)
  | SDangling.

Definition resolve (h : list obj) (v : val) : seen :=
  match v with
  | VStr s => SStr s
  | VRef l => match h !! l with Some o => SObj o | None => SDangling end
  end.

(** The arguments of every [console.log] call among [xs]. *)
Fixpoint calls (h : list obj) (xs : list effect) : list (list seen) :=
  match xs with
  | [] => []
  | ConsoleLog args :: xs' => map (resolve h) args :: calls h xs'
  | _ :: xs' => calls h xs'
  end.

(** The hand-offs made between [a] and [a'], read in the heap of [a']. *)
Definition handed_off (a a' : App) : list (list seen) :=
  calls (heap (world a')) (since a a').

(** The state right after mount. *)
Definition mounted : App :=
  {| world := {| heap := [init_form]; hook := Some 0; effects := [] |};
     view := elements 0 (Some "") (Some "") (Some "") |}.

(** ** The invariant of a running application

    The hook refers to a live object [o], and the rendered tree is the one
    built from that reference and from the values of [o]: no handler holds
    a stale [form]. *)

Definition synced (a : App) (l : loc) (o : obj) : Prop :=
  hook (world a) = Some l ∧
  heap (world a) !! l = Some o ∧
  view a = elements l (o !! "name") (o !! "email") (o !! "password").

(** What holds in every reachable state: the application is synced, the
    form object has exactly the three keys, and the browser never
    navigated. *)
Definition good (a : App) : Prop :=
  ∃ l o, synced a l o ∧ dom o = known_keys ∧
         count is_navigate (effects (world a)) = 0.

(** ** The scenario of the specification: Ada fills in name and email *)

Definition ada_events : list Event :=
  [Change Name {| target_value := "Ada" |};
   Change Email {| target_value := "ada@x.com" |}].

Definition ada : App := default mounted (run ada_events mounted).

Definition ada_form : obj :=
  {[ "name" := "Ada"; "email" := "ada@x.com"; "password" := "" ]}.

Definition submit0 : SubmitEvent :=
  {| timeStamp := 0; defaultPrevented := false |}.

Definition submit1 : SubmitEvent :=
  {| timeStamp := 7; defaultPrevented := false |}.

(** The same form state reached another way: the email is typed twice. *)
Definition retyped_events : list Event :=
  [Change Email {| target_value := "ada@x" |};
   Change Name {| target_value := "Ada" |};
   Change Email {| target_value := "ada@x.com" |}].

Definition ada_retyped : App := default mounted (run retyped_events mounted).

(** ** A session, told without heap, hook or closures

    What a list of events should leave behind, to compare the running
    application with. *)

Definition same_field (f g : Field) : bool :=
  match f, g with
  | Name, Name | Email, Email | Password, Password => true
  | _, _ => false
  end.

(** The text last put into input [f] by [evs]; [cur] when [evs] has no
    change event on [f]. *)
Fixpoint typed (f : Field) (evs : list Event) (cur : string) : string :=
  match evs with
  | [] => cur
  | Change g e :: evs' =>
      typed f evs' (if same_field g f then target_value e else cur)
  | Submit _ :: evs' => typed f evs' cur
  end.

(** What the console should have been given by [evs], oldest first, when
    the form object is [o] at the start: one call per submit event, with
    the form object of that moment. *)
Fixpoint snapshots (evs : list Event) (o : obj) : list (list seen) :=
  match evs with
  | [] => []
  | Change f e :: evs' => snapshots evs' (<[key f := target_value e]> o)
  | Submit _ :: evs' => [SStr "Signing up with:"; SObj o] :: snapshots evs' o
  end.

Fixpoint submits (evs : list Event) : nat :=
  match evs with
  | [] => 0
  | Submit _ :: evs' => S (submits evs')
  | Change _ _ :: evs' => submits evs'
  end.

(** The effects one event adds when the hook refers to [l]. *)
Definition effects_of (ev : Event) (l : loc) : list effect :=
  match ev with
  | Change _ _ => []
  | Submit _ => [PreventDefault; ConsoleLog [VStr "Signing up with:"; VRef l]]
  end.

(** The form object one event leaves, from [o]. *)
Definition form_of (ev : Event) (o : obj) : obj :=
  match ev with
  | Change f e => <[key f := target_value e]> o
  | Submit _ => o
  end.

(** The objects allocated while one event is handled as [dispatch] does
    it, when the form object is [o]: the copy made by the change handler,
    and the literal of line 4 built again by the render that follows. *)
Definition allocated_by (ev : Event) (o : obj) : list obj :=
  match ev with
  | Change f e => [<[key f := target_value e]> o; init_form]
  | Submit _ => []
  end.

(** Every reference the console holds leads to an object, so what the
    console was given reads the same in any heap that keeps the objects
    of this one. *)
Definition settled (w : World) : Prop :=
  ∀ h', (∀ p x, heap w !! p = Some x → h' !! p = Some x) →
        calls h' (effects w) = calls (heap w) (effects w).


(** A session with submits between the edits. *)
Definition busy_events : list Event :=
  [Change Name {| target_value := "Ada" |};
   Submit submit0;
   Change Password {| target_value := "hunter2" |};
   Change Name {| target_value := "Ada L." |};
   Submit submit1].

(** * Proofs *)

Section Render.

Lemma key_inj f g : key f = key g → f = g.
Proof. by destruct f, g. Qed.

Lemma key_known f : key f ∈ known_keys.
Proof. destruct f; unfold known_keys; set_solver. Qed.

Lemma dom_init_form : dom init_form = known_keys.
Proof.
  unfold init_form, known_keys.
  rewrite !dom_insert_L, dom_singleton_L. set_solver.
Qed.

Lemma init_form_lookup f : init_form !! key f = Some "".
Proof. by destruct f. Qed.

Lemma bind_eq {A B} (c : M A) (k : A → M B) w a w' :
  c w = Some (a, w') → bind c k w = k a w'.
Proof. intros H. unfold bind. by rewrite H. Qed.

Lemma get_prop_eq w l o k :
  heap w !! l = Some o → get_prop l k w = Some (o !! k, w).
Proof. intros H. unfold get_prop, bind, deref. by rewrite H. Qed.

Lemma spread_with_eq w l o k v :
  heap w !! l = Some o →
  spread_with l k v w =
    Some (length (heap w),
          {| heap := heap w ++ [<[k := v]> o]; hook := hook w;
             effects := effects w |}).
Proof. intros H. unfold spread_with, bind, deref. by rewrite H. Qed.

Lemma useState_mounted init w l :
  hook w = Some l → useState init w = Some (l, w).
Proof. intros H. unfold useState. by rewrite H. Qed.

(** A render after mount: one unused object is allocated, the state is
    read, and the tree is built from it. *)
Lemma render_mounted w l o :
  hook w = Some l → heap w !! l = Some o →
  render w =
    Some {| world := {| heap := heap w ++ [init_form]; hook := Some l;
                        effects := effects w |};
            view := elements l (o !! "name") (o !! "email")
                      (o !! "password") |}.
Proof.
  intros Hh Hl.
  assert (Hl' : (heap w ++ [init_form]) !! l = Some o)
    by (by apply lookup_app_l_Some).
  unfold render, Signup.
  erewrite bind_eq by reflexivity.
  erewrite bind_eq by (by apply useState_mounted).
  do 3 (erewrite bind_eq by (by apply get_prop_eq)).
  cbn. by rewrite Hh.
Qed.

(** The first render stores the object of the literal. *)
Lemma render_first w :
  hook w = None →
  render w =
    Some {| world := {| heap := heap w ++ [init_form];
                        hook := Some (length (heap w));
                        effects := effects w |};
            view := elements (length (heap w)) (Some "") (Some "")
                      (Some "") |}.
Proof.
  intros Hh.
  assert (Hl' : (heap w ++ [init_form]) !! length (heap w) = Some init_form)
    by apply list_lookup_middle, eq_refl.
  unfold render, Signup.
  erewrite bind_eq by reflexivity.
  erewrite bind_eq by (unfold useState; cbn; by rewrite Hh).
  by do 3 (erewrite bind_eq by (by apply get_prop_eq)).
Qed.

End Render.

(** What one event does to a synced application, as equations. *)
Section Dispatch.

Variables (a : App) (l : loc) (o : obj).
Hypothesis Hs : synced a l o.

Lemma FormState_get_synced : FormState_get a = Some o.
Proof. destruct Hs as (Hh & Hl & _). unfold FormState_get. by rewrite Hh. Qed.

Lemma displayed_synced f : displayed a f = o !! key f.
Proof.
  destruct Hs as (_ & _ & Hv). unfold displayed. rewrite Hv. by destruct f.
Qed.

(** The handler of the [f] input writes [key f] into a copy of the
    object the hook refers to, and stores the copy in the hook. *)
Lemma onChange_synced f e :
  onChange (inputs (view a) f) e (world a) =
    Some (tt, {| heap := heap (world a) ++ [<[key f := target_value e]> o];
                 hook := Some (length (heap (world a)));
                 effects := effects (world a) |}).
Proof.
  destruct Hs as (Hh & Hl & Hv). rewrite Hv.
  destruct f; cbn; by erewrite bind_eq by (by apply spread_with_eq).
Qed.

Lemma dispatch_Change f e :
  let o' := <[key f := target_value e]> o in
  dispatch (Change f e) a =
    Some {| world := {| heap := (heap (world a) ++ [o']) ++ [init_form];
                        hook := Some (length (heap (world a)));
                        effects := effects (world a) |};
            view := elements (length (heap (world a)))
                      (o' !! "name") (o' !! "email") (o' !! "password") |}.
Proof.
  intros o'. unfold dispatch. rewrite onChange_synced.
  erewrite render_mounted; [done | done |].
  cbn. by apply list_lookup_middle.
Qed.

(** The submit handler, on any event: two calls, in this order, and the
    event comes back with its default action prevented. *)
Lemma onSubmit_synced e :
  onSubmit (view a) e (world a) =
    Some ({| timeStamp := timeStamp e; defaultPrevented := true |},
          {| heap := heap (world a); hook := hook (world a);
             effects := (effects (world a) ++ [PreventDefault]) ++
                        [ConsoleLog [VStr "Signing up with:"; VRef l]] |}).
Proof. destruct Hs as (_ & _ & Hv). by rewrite Hv. Qed.

Lemma dispatch_Submit e :
  dispatch (Submit e) a =
    Some {| world := {| heap := heap (world a); hook := hook (world a);
                        effects := (effects (world a) ++ [PreventDefault]) ++
                          [ConsoleLog [VStr "Signing up with:"; VRef l]] |};
            view := view a |}.
Proof. unfold dispatch. by rewrite onSubmit_synced. Qed.

End Dispatch.

(** ** Reachable states *)

Section Reachable.

Lemma mount_eq : mount = Some mounted.
Proof. reflexivity. Qed.

Lemma count_app p xs ys : count p (xs ++ ys) = count p xs + count p ys.
Proof. induction xs as [|x xs IH]; cbn; [done | rewrite IH; lia]. Qed.

Lemma since_app a a' xs :
  effects (world a') = effects (world a) ++ xs → since a a' = xs.
Proof. intros H. unfold since. rewrite H. apply drop_app_length. Qed.

Lemma dom_set_known (o : obj) f v :
  dom o = known_keys → dom (<[key f := v]> o) = known_keys.
Proof.
  intros Hd. rewrite dom_insert_L, Hd.
  apply subseteq_union_1_L, singleton_subseteq_l, key_known.
Qed.

Lemma good_mounted : good mounted.
Proof.
  exists 0, init_form. split; [by repeat split|].
  split; [apply dom_init_form | done].
Qed.

(** Every event is handled, keeps the invariant, and leaves every object
    of the heap where and as it was. *)
Lemma dispatch_good ev a :
  good a →
  ∃ a', dispatch ev a = Some a' ∧ good a' ∧
        ∀ p x, heap (world a) !! p = Some x → heap (world a') !! p = Some x.
Proof.
  intros (l & o & Hs & Hd & Hn). destruct ev as [f e | e].
  - eexists. split; [by apply (dispatch_Change a l o)|].
    split.
    + exists (length (heap (world a))), (<[key f := target_value e]> o).
      split; [|split; [by apply dom_set_known | done]].
      repeat split. cbn. by apply lookup_app_l_Some, list_lookup_middle.
    + intros p x Hp. cbn. by do 2 apply lookup_app_l_Some.
  - eexists. split; [by apply (dispatch_Submit a l o)|].
    split; [|done].
    exists l, o. destruct Hs as (Hh & Hl & Hv).
    split; [done|]. split; [done|].
    cbn. rewrite !count_app, Hn. done.
Qed.

Lemma run_good evs : ∀ a,
  good a →
  ∃ a', run evs a = Some a' ∧ good a' ∧
        ∀ p x, heap (world a) !! p = Some x → heap (world a') !! p = Some x.
Proof.
  induction evs as [|ev evs IH]; intros a Hg.
  - by exists a.
  - destruct (dispatch_good ev a Hg) as (a1 & Hd & Hg1 & Hp1).
    destruct (IH a1 Hg1) as (a2 & Hr & Hg2 & Hp2).
    exists a2. cbn. rewrite Hd. eauto.
Qed.

Lemma reachable_good a : reachable a → good a.
Proof.
  intros (a0 & evs & Hm & Hr). rewrite mount_eq in Hm.
  injection Hm as <-.
  destruct (run_good evs mounted good_mounted) as (a' & Hr' & Hg & _).
  congruence.
Qed.

(** What the default action would do, had the handler not prevented it:
    the page is loaded again and the form starts from the empty state. *)
Lemma navigate_reloads w :
  ∃ a, navigate w = Some a ∧
       FormState_get a = Some init_form ∧
       count is_navigate (effects (world a)) =
         S (count is_navigate (effects w)).
Proof.
  eexists. split; [by apply render_first|].
  split; [done|]. cbn. rewrite count_app. cbn. lia.
Qed.

Lemma reachable_mounted : reachable mounted.
Proof. by exists mounted, []. Qed.

Lemma reachable_run evs a a' :
  reachable a → run evs a = Some a' → reachable a'.
Proof.
  intros (a0 & evs0 & Hm & Hr) Hr'. exists a0, (evs0 ++ evs).
  split; [done|]. clear Hm. revert a0 Hr.
  induction evs0 as [|ev evs0 IH]; intros a0 Hr; cbn in *.
  - by injection Hr as ->.
  - destruct (dispatch ev a0); [by apply IH | done].
Qed.

End Reachable.

(** ** The scenario, evaluated *)

Section Scenario.

Lemma run_ada : run ada_events mounted = Some ada.
Proof. reflexivity. Qed.

Lemma reachable_ada : reachable ada.
Proof. by exists mounted, ada_events. Qed.

Example set_name_Ada :
  (run [Change Name {| target_value := "Ada" |}] mounted) ≫= FormState_get
  = Some {[ "name" := "Ada"; "email" := ""; "password" := "" ]}.
Proof. vm_compute. reflexivity. Qed.

Example FormState_get_ada : FormState_get ada = Some ada_form.
Proof. vm_compute. reflexivity. Qed.

Example submit_ada :
  ∃ a', dispatch (Submit submit0) ada = Some a' ∧
        effects (world a') =
          [PreventDefault; ConsoleLog [VStr "Signing up with:"; VRef 3]] ∧
        handed_off ada a' = [[SStr "Signing up with:"; SObj ada_form]] ∧
        count is_navigate (effects (world a')) = 0 ∧
        FormState_get a' = Some ada_form.
Proof. eexists. split; [reflexivity|]. vm_compute. done. Qed.

End Scenario.

(** * The properties of the specification *)

Section FieldUpdates.

(** The form state after a change event on a synced application. *)
Lemma FormState_get_Change a l o f e a' :
  synced a l o →
  dispatch (Change f e) a = Some a' →
  FormState_get a' = Some (<[key f := target_value e]> o).
Proof.
  intros Hs. rewrite (dispatch_Change a l o Hs). intros [= <-].
  unfold FormState_get. cbn.
  by apply lookup_app_l_Some, list_lookup_middle.
Qed.

Lemma dispatch_Change_synced a l o f e :
  synced a l o →
  ∃ a' l', dispatch (Change f e) a = Some a' ∧
           synced a' l' (<[key f := target_value e]> o).
Proof.
  intros Hs. eexists. exists (length (heap (world a))).
  split; [by apply (dispatch_Change a l o)|].
  repeat split. cbn. by apply lookup_app_l_Some, list_lookup_middle.
Qed.

Lemma dispatch_reachable ev a a' :
  reachable a → dispatch ev a = Some a' → reachable a'.
Proof.
  intros Hr Hd. apply (reachable_run [ev] a a' Hr). cbn. by rewrite Hd.
Qed.

End FieldUpdates.

(** What a submit event hands off in a reachable state. *)
Lemma submit_log (a : App) (e : SubmitEvent) :
  reachable a →
  ∃ o a',
    FormState_get a = Some o ∧
    dispatch (Submit e) a = Some a' ∧
    handed_off a a' = [[SStr "Signing up with:"; SObj o]].
Proof.
  intros Hr. destruct (reachable_good a Hr) as (l & o & Hs & _).
  exists o. eexists.
  split; [by apply (FormState_get_synced a l)|].
  split; [by apply (dispatch_Submit a l o)|].
  unfold handed_off. erewrite since_app; [|cbn; by rewrite <- app_assoc].
  cbn. by destruct Hs as (_ & -> & _).
Qed.

(** C1.  In every state the form can reach, a change event on the input of
    field [f] carrying the text [v] is handled, and afterwards the form
    state holds exactly [v] under [f] (whatever the string [v] is) and the
    values it held before under the two other fields.  The state after the
    event is reachable again, so this holds along every sequence of
    updates. *)
Theorem set_field_exact (a : App) (f : Field) (v : string) :
  reachable a →
  ∃ o a' o',
    FormState_get a = Some o ∧
    dispatch (Change f {| target_value := v |}) a = Some a' ∧
    FormState_get a' = Some o' ∧
    o' !! key f = Some v ∧
    (∀ g, g ≠ f → o' !! key g = o !! key g) ∧
    reachable a'.
Proof.
  intros Hr. destruct (reachable_good a Hr) as (l & o & Hs & _).
  destruct (dispatch_good (Change f {| target_value := v |}) a
              (reachable_good a Hr)) as (a' & Hd & _).
  exists o, a', (<[key f := v]> o).
  split; [by apply (FormState_get_synced a l)|].
  split; [done|].
  split; [by apply (FormState_get_Change a l o f {| target_value := v |} a')|].
  split; [apply lookup_insert_eq|].
  split; [|by apply (dispatch_reachable (Change f {| target_value := v |}) a)].
  intros g Hg. apply lookup_insert_ne. intros Hk. by apply key_inj in Hk.
Qed.

Lemma set_field_exact_witness :
  reachable mounted ∧
  ∃ o a' o',
    FormState_get mounted = Some o ∧
    dispatch (Change Name {| target_value := " Ada " |}) mounted = Some a' ∧
    FormState_get a' = Some o' ∧
    o' !! key Name = Some " Ada " ∧
    (∀ g, g ≠ Name → o' !! key g = o !! key g) ∧
    reachable a'.
Proof.
  assert (Hr : reachable mounted) by (exists mounted, []; split; reflexivity).
  split; [exact Hr | exact (set_field_exact mounted Name " Ada " Hr)].
Defined.

(** C2.  In every reachable state (the freshly mounted form, whose three
    fields are empty, included) and for every submit event, the submit
    handler runs to its end; the first call it makes is [preventDefault],
    the event leaves the handler with its default action prevented, and
    the browser's navigation is not among the effects of the submit, nor
    anywhere in the trace. *)
Theorem submit_prevents_default_first (a : App) (e : SubmitEvent) :
  reachable a →
  ∃ e' w' a' rest,
    onSubmit (view a) e (world a) = Some (e', w') ∧
    defaultPrevented e' = true ∧
    effects w' = effects (world a) ++ PreventDefault :: rest ∧
    dispatch (Submit e) a = Some a' ∧
    since a a' = PreventDefault :: rest ∧
    count is_navigate (effects (world a')) = 0.
Proof.
  intros Hr. destruct (reachable_good a Hr) as (l & o & Hs & _ & Hn).
  do 3 eexists. exists [ConsoleLog [VStr "Signing up with:"; VRef l]].
  split; [by apply (onSubmit_synced a l o)|].
  split; [done|].
  split; [cbn; by rewrite <- app_assoc|].
  split; [by apply (dispatch_Submit a l o)|].
  split.
  - apply since_app. cbn. by rewrite <- app_assoc.
  - cbn. by rewrite !count_app, Hn.
Qed.

Lemma submit_prevents_default_first_witness :
  reachable mounted ∧
  ∃ e' w' a' rest,
    onSubmit (view mounted) submit0 (world mounted) = Some (e', w') ∧
    defaultPrevented e' = true ∧
    effects w' = effects (world mounted) ++ PreventDefault :: rest ∧
    dispatch (Submit submit0) mounted = Some a' ∧
    since mounted a' = PreventDefault :: rest ∧
    count is_navigate (effects (world a')) = 0.
Proof.
  assert (Hr : reachable mounted) by (exists mounted, []; split; reflexivity).
  split; [exact Hr | exact (submit_prevents_default_first mounted submit0 Hr)].
Defined.

(** C3.  In every reachable state a submit event makes exactly one
    [console.log] call; the object handed over is the form state at that
    moment, and the browser does not navigate. *)
Theorem submit_hands_off_snapshot (a : App) (e : SubmitEvent) :
  reachable a →
  ∃ o a',
    FormState_get a = Some o ∧
    dispatch (Submit e) a = Some a' ∧
    handed_off a a' = [[SStr "Signing up with:"; SObj o]] ∧
    count is_log (since a a') = 1 ∧
    count is_navigate (since a a') = 0.
Proof.
  intros Hr. destruct (reachable_good a Hr) as (l & o & Hs & _).
  exists o. eexists.
  split; [by apply (FormState_get_synced a l)|].
  split; [by apply (dispatch_Submit a l o)|].
  assert (Hsince : since a
            {| world := {| heap := heap (world a); hook := hook (world a);
                           effects := (effects (world a) ++ [PreventDefault]) ++
                             [ConsoleLog [VStr "Signing up with:"; VRef l]] |};
               view := view a |}
          = [PreventDefault; ConsoleLog [VStr "Signing up with:"; VRef l]]).
  { apply since_app. cbn. by rewrite <- app_assoc. }
  unfold handed_off. rewrite Hsince. cbn.
  destruct Hs as (_ & -> & _). done.
Qed.

(** The scenario of the specification: name "Ada", email "ada@x.com",
    empty password, then submit. *)
Lemma submit_hands_off_snapshot_witness :
  reachable ada ∧
  ∃ o a',
    FormState_get ada = Some o ∧
    dispatch (Submit submit0) ada = Some a' ∧
    handed_off ada a' = [[SStr "Signing up with:"; SObj o]] ∧
    count is_log (since ada a') = 1 ∧
    count is_navigate (since ada a') = 0.
Proof.
  assert (Hr : reachable ada)
    by (exists mounted, ada_events; split; reflexivity).
  split; [exact Hr | exact (submit_hands_off_snapshot ada submit0 Hr)].
Defined.

(** C4.  The mounted form holds the empty string under each of the three
    keys, and after any sequence of change and submit events the form is
    still running, its state holds a string under each of the three keys,
    and every input displays the string held under its key. *)
Theorem form_always_populated :
  (∃ a0 o0, mount = Some a0 ∧ FormState_get a0 = Some o0 ∧
            ∀ f, o0 !! key f = Some "" ∧ displayed a0 f = Some "") ∧
  (∀ evs : list Event, ∃ a o,
      mount ≫= run evs = Some a ∧ FormState_get a = Some o ∧
      ∀ f, ∃ s, o !! key f = Some s ∧ displayed a f = Some s).
Proof.
  split.
  - exists mounted, init_form. split; [apply mount_eq|]. split; [done|].
    intros f. split; [apply init_form_lookup | by destruct f].
  - intros evs. rewrite mount_eq. cbn.
    destruct (run_good evs mounted good_mounted)
      as (a & Hr & (l & o & Hs & Hd & _) & _).
    exists a, o. split; [done|].
    split; [by apply (FormState_get_synced a l)|].
    intros f.
    assert (Hin : is_Some (o !! key f))
      by (apply elem_of_dom; rewrite Hd; apply key_known).
    destruct Hin as [s Hs']. exists s. split; [done|].
    by rewrite (displayed_synced a l o Hs).
Qed.

(** C5.  In every reachable state, the same change event on the same
    input handled twice in a row leaves the form state (and what the
    inputs display) as handling it once does. *)
Theorem set_field_idempotent (a : App) (f : Field) (v : string) :
  reachable a →
  ∃ a1 a2 o,
    run [Change f {| target_value := v |}] a = Some a1 ∧
    run [Change f {| target_value := v |};
         Change f {| target_value := v |}] a = Some a2 ∧
    FormState_get a1 = Some o ∧
    FormState_get a2 = Some o ∧
    ∀ g, displayed a2 g = displayed a1 g.
Proof.
  intros Hr. destruct (reachable_good a Hr) as (l & o & Hs & _).
  destruct (dispatch_Change_synced a l o f {| target_value := v |} Hs)
    as (a1 & l1 & Hd1 & Hs1).
  destruct (dispatch_Change_synced a1 l1 _ f {| target_value := v |} Hs1)
    as (a2 & l2 & Hd2 & Hs2).
  cbn [target_value] in *. rewrite insert_insert_eq in Hs2.
  exists a1, a2, (<[key f := v]> o). cbn [run]. rewrite Hd1, Hd2.
  split; [done|]. split; [done|].
  split; [by apply (FormState_get_synced a1 l1)|].
  split; [by apply (FormState_get_synced a2 l2)|].
  intros g.
  by rewrite (displayed_synced a1 l1 _ Hs1), (displayed_synced a2 l2 _ Hs2).
Qed.

Lemma set_field_idempotent_witness :
  reachable mounted ∧
  ∃ a1 a2 o,
    run [Change Password {| target_value := "hunter2" |}] mounted = Some a1 ∧
    run [Change Password {| target_value := "hunter2" |};
         Change Password {| target_value := "hunter2" |}] mounted = Some a2 ∧
    FormState_get a1 = Some o ∧
    FormState_get a2 = Some o ∧
    ∀ g, displayed a2 g = displayed a1 g.
Proof.
  assert (Hr : reachable mounted) by (exists mounted, []; split; reflexivity).
  split; [exact Hr | exact (set_field_idempotent mounted Password "hunter2" Hr)].
Defined.

(** C6.  In every reachable state a submit event leaves the hook, the
    heap and the rendered tree as they were, so the form state and what
    the inputs display are unchanged; the form then handles any further
    event. *)
Theorem submit_keeps_form (a : App) (e : SubmitEvent) :
  reachable a →
  ∃ o a',
    dispatch (Submit e) a = Some a' ∧
    FormState_get a = Some o ∧
    FormState_get a' = Some o ∧
    hook (world a') = hook (world a) ∧
    heap (world a') = heap (world a) ∧
    (∀ f, displayed a' f = displayed a f) ∧
    ∀ ev, is_Some (dispatch ev a').
Proof.
  intros Hr. destruct (reachable_good a Hr) as (l & o & Hs & _).
  exists o. eexists.
  split; [by apply (dispatch_Submit a l o)|].
  pose proof (FormState_get_synced a l o Hs) as Hget.
  split; [done|]. split; [done|]. split; [done|]. split; [done|].
  split; [done|].
  intros ev.
  assert (Hr' : reachable
            {| world := {| heap := heap (world a); hook := hook (world a);
                           effects := (effects (world a) ++ [PreventDefault]) ++
                             [ConsoleLog [VStr "Signing up with:"; VRef l]] |};
               view := view a |}).
  { apply (dispatch_reachable (Submit e) a); [done|].
    by apply (dispatch_Submit a l o). }
  destruct (dispatch_good ev _ (reachable_good _ Hr')) as (a2 & -> & _).
  by eexists.
Qed.

Lemma submit_keeps_form_witness :
  reachable ada ∧
  ∃ o a',
    dispatch (Submit submit0) ada = Some a' ∧
    FormState_get ada = Some o ∧
    FormState_get a' = Some o ∧
    hook (world a') = hook (world ada) ∧
    heap (world a') = heap (world ada) ∧
    (∀ f, displayed a' f = displayed ada f) ∧
    ∀ ev, is_Some (dispatch ev a').
Proof.
  assert (Hr : reachable ada)
    by (exists mounted, ada_events; split; reflexivity).
  split; [exact Hr | exact (submit_keeps_form ada submit0 Hr)].
Defined.

(** C7.  In every reachable state a submit event hands the console the
    object that is the form state at that moment; whatever events are
    handled afterwards (they all are handled), what the console was given
    still reads as that same object: later edits build new objects and
    never write to one that was handed off. *)
Theorem handed_off_snapshot_immutable (a : App) (e : SubmitEvent) :
  reachable a →
  ∃ o a1,
    FormState_get a = Some o ∧
    dispatch (Submit e) a = Some a1 ∧
    handed_off a a1 = [[SStr "Signing up with:"; SObj o]] ∧
    ∀ evs, ∃ a2,
      run evs a1 = Some a2 ∧
      calls (heap (world a2)) (since a a1) = [[SStr "Signing up with:"; SObj o]].
Proof.
  intros Hr. destruct (reachable_good a Hr) as (l & o & Hs & Hg).
  pose proof (dispatch_Submit a l o Hs e) as Hd.
  set (a1 := {| world := {| heap := heap (world a); hook := hook (world a);
                            effects := (effects (world a) ++ [PreventDefault]) ++
                              [ConsoleLog [VStr "Signing up with:"; VRef l]] |};
                view := view a |}) in *.
  assert (Hsince : since a a1 =
            [PreventDefault; ConsoleLog [VStr "Signing up with:"; VRef l]]).
  { apply since_app. cbn. by rewrite <- app_assoc. }
  assert (Hl : heap (world a1) !! l = Some o) by (by destruct Hs as (_ & ? & _)).
  exists o, a1.
  split; [by apply (FormState_get_synced a l)|]. split; [done|].
  unfold handed_off. rewrite Hsince. cbn [calls map resolve].
  split; [by rewrite Hl|].
  intros evs.
  assert (Hr1 : reachable a1) by (by apply (dispatch_reachable (Submit e) a)).
  destruct (run_good evs a1 (reachable_good a1 Hr1)) as (a2 & Hrun & _ & Hkeep).
  exists a2. split; [done|]. by rewrite (Hkeep l o Hl).
Qed.

Lemma handed_off_snapshot_immutable_witness :
  reachable ada ∧
  ∃ o a1,
    FormState_get ada = Some o ∧
    dispatch (Submit submit0) ada = Some a1 ∧
    handed_off ada a1 = [[SStr "Signing up with:"; SObj o]] ∧
    ∀ evs, ∃ a2,
      run evs a1 = Some a2 ∧
      calls (heap (world a2)) (since ada a1) =
        [[SStr "Signing up with:"; SObj o]].
Proof.
  assert (Hr : reachable ada)
    by (exists mounted, ada_events; split; reflexivity).
  split; [exact Hr | exact (handed_off_snapshot_immutable ada submit0 Hr)].
Defined.

(** Ada submits and then changes the name: the form state moves on, the
    object the console holds does not. *)
Example edit_after_submit :
  ∃ a2, run [Submit submit0; Change Name {| target_value := "Bob" |}] ada
          = Some a2 ∧
        FormState_get a2 =
          Some {[ "name" := "Bob"; "email" := "ada@x.com"; "password" := "" ]} ∧
        calls (heap (world a2)) (effects (world a2)) =
          [[SStr "Signing up with:"; SObj ada_form]].
Proof. eexists. split; [reflexivity|]. vm_compute. done. Qed.




(** C9.  In every reachable state, change events on two different inputs
    give the same form state (and the same displayed values) in either
    order. *)
Theorem set_fields_commute (a : App) (f g : Field) (u v : string) :
  reachable a →
  f ≠ g →
  ∃ a1 a2 o,
    run [Change f {| target_value := u |};
         Change g {| target_value := v |}] a = Some a1 ∧
    run [Change g {| target_value := v |};
         Change f {| target_value := u |}] a = Some a2 ∧
    FormState_get a1 = Some o ∧
    FormState_get a2 = Some o ∧
    ∀ h, displayed a1 h = displayed a2 h.
Proof.
  intros Hr Hfg. destruct (reachable_good a Hr) as (l & o & Hs & _).
  destruct (dispatch_Change_synced a l o f {| target_value := u |} Hs)
    as (af & lf & Hdf & Hsf).
  destruct (dispatch_Change_synced af lf _ g {| target_value := v |} Hsf)
    as (a1 & l1 & Hd1 & Hs1).
  destruct (dispatch_Change_synced a l o g {| target_value := v |} Hs)
    as (ag & lg & Hdg & Hsg).
  destruct (dispatch_Change_synced ag lg _ f {| target_value := u |} Hsg)
    as (a2 & l2 & Hd2 & Hs2).
  cbn [target_value] in *.
  rewrite (insert_insert_ne o (key f) (key g)) in Hs2
    by (intros Hkey; by apply key_inj in Hkey).
  exists a1, a2, (<[key g := v]> (<[key f := u]> o)).
  cbn [run]. rewrite Hdf, Hd1, Hdg, Hd2.
  split; [done|]. split; [done|].
  split; [by apply (FormState_get_synced a1 l1)|].
  split; [by apply (FormState_get_synced a2 l2)|].
  intros h.
  by rewrite (displayed_synced a1 l1 _ Hs1), (displayed_synced a2 l2 _ Hs2).
Qed.

Lemma set_fields_commute_witness :
  reachable mounted ∧
  Name ≠ Email ∧
  ∃ a1 a2 o,
    run [Change Name {| target_value := "Ada" |};
         Change Email {| target_value := "ada@x.com" |}] mounted = Some a1 ∧
    run [Change Email {| target_value := "ada@x.com" |};
         Change Name {| target_value := "Ada" |}] mounted = Some a2 ∧
    FormState_get a1 = Some o ∧
    FormState_get a2 = Some o ∧
    ∀ h, displayed a1 h = displayed a2 h.
Proof.
  assert (Hr : reachable mounted) by (exists mounted, []; split; reflexivity).
  assert (Hne : Name ≠ Email) by discriminate.
  split; [exact Hr|]. split; [exact Hne|].
  exact (set_fields_commute mounted Name Email "Ada" "ada@x.com" Hr Hne).
Defined.

(** C10.  Two submit events fired from reachable states with equal form
    states hand the console the same values, whatever the two events
    carry and wherever the two form objects live in the heap. *)
Theorem payload_depends_on_form_only (a b : App) (e1 e2 : SubmitEvent) :
  reachable a →
  reachable b →
  FormState_get a = FormState_get b →
  ∃ o a' b',
    dispatch (Submit e1) a = Some a' ∧
    dispatch (Submit e2) b = Some b' ∧
    handed_off a a' = [[SStr "Signing up with:"; SObj o]] ∧
    handed_off b b' = handed_off a a'.
Proof.
  intros Ha Hb Heq.
  destruct (submit_log a e1 Ha) as (oa & a' & Hga & Hda & Hha).
  destruct (submit_log b e2 Hb) as (ob & b' & Hgb & Hdb & Hhb).
  assert (oa = ob) as -> by congruence.
  exists ob, a', b'.
  split; [done|]. split; [done|]. split; [done|]. congruence.
Qed.

Lemma payload_depends_on_form_only_witness :
  reachable ada ∧
  reachable ada_retyped ∧
  FormState_get ada = FormState_get ada_retyped ∧
  ∃ o a' b',
    dispatch (Submit submit0) ada = Some a' ∧
    dispatch (Submit submit1) ada_retyped = Some b' ∧
    handed_off ada a' = [[SStr "Signing up with:"; SObj o]] ∧
    handed_off ada_retyped b' = handed_off ada a'.
Proof.
  assert (Ha : reachable ada)
    by (exists mounted, ada_events; split; reflexivity).
  assert (Hb : reachable ada_retyped)
    by (exists mounted, retyped_events; split; reflexivity).
  assert (Heq : FormState_get ada = FormState_get ada_retyped)
    by (vm_compute; reflexivity).
  split; [exact Ha|]. split; [exact Hb|]. split; [exact Heq|].
  exact (payload_depends_on_form_only ada ada_retyped submit0 submit1 Ha Hb Heq).
Defined.

(** * Further properties of the component *)

Section Steps.

Lemma calls_app h xs ys : calls h (xs ++ ys) = calls h xs ++ calls h ys.
Proof.
  induction xs as [|x xs IH]; [done|].
  destruct x; cbn; by rewrite ?IH.
Qed.

(** One event on a synced application, in full. *)
Lemma step_synced ev a l o :
  synced a l o →
  ∃ a' l',
    dispatch ev a = Some a' ∧
    synced a' l' (form_of ev o) ∧
    heap (world a') = heap (world a) ++ allocated_by ev o ∧
    effects (world a') = effects (world a) ++ effects_of ev l.
Proof.
  intros Hs. destruct ev as [f e | e].
  - eexists. exists (length (heap (world a))).
    split; [by apply (dispatch_Change a l o)|].
    split.
    + repeat split. cbn. by apply lookup_app_l_Some, list_lookup_middle.
    + cbn. rewrite <- app_assoc, app_nil_r. done.
  - eexists. exists l.
    split; [by apply (dispatch_Submit a l o)|].
    destruct Hs as (Hh & Hl & Hv).
    split; [done|]. cbn. by rewrite app_nil_r, <- app_assoc.
Qed.

Lemma settled_mounted : settled (world mounted).
Proof. by intros h' _. Qed.

Lemma settled_step ev a l o a' :
  synced a l o →
  settled (world a) →
  heap (world a') = heap (world a) ++ allocated_by ev o →
  effects (world a') = effects (world a) ++ effects_of ev l →
  settled (world a') ∧
  calls (heap (world a')) (effects (world a')) =
    calls (heap (world a)) (effects (world a)) ++ snapshots [ev] o.
Proof.
  intros (Hh & Hl & Hv) Hset Hheap Heff.
  assert (Hkeep : ∀ p x, heap (world a) !! p = Some x →
                         heap (world a') !! p = Some x).
  { intros p x Hp. rewrite Hheap. by apply lookup_app_l_Some. }
  assert (Hnew : ∀ h', (∀ p x, heap (world a') !! p = Some x →
                               h' !! p = Some x) →
                       calls h' (effects (world a')) =
                       calls (heap (world a)) (effects (world a)) ++
                       snapshots [ev] o).
  { intros h' Hh'. rewrite Heff, calls_app.
    rewrite Hset by (intros p x Hp; by apply Hh', Hkeep).
    f_equal. destruct ev as [f e | e]; [done|].
    cbn. by rewrite (Hh' l o (Hkeep l o Hl)). }
  split.
  - intros h' Hh'. rewrite (Hnew h' Hh'). symmetry. by apply Hnew.
  - by apply Hnew.
Qed.

Lemma snapshots_cons ev evs o :
  snapshots (ev :: evs) o = snapshots [ev] o ++ snapshots evs (form_of ev o).
Proof. by destruct ev. Qed.

Lemma typed_cons f ev evs (o : obj) cur :
  o !! key f = Some cur →
  ∃ cur', form_of ev o !! key f = Some cur' ∧
          typed f (ev :: evs) cur = typed f evs cur'.
Proof.
  intros Ho. destruct ev as [g e | e]; cbn; [|by exists cur].
  destruct (same_field g f) eqn:E.
  - exists (target_value e). split; [|done].
    assert (g = f) as -> by (by destruct g, f). apply lookup_insert_eq.
  - exists cur. split; [|done].
    rewrite lookup_insert_ne; [done|].
    intros Hk. apply key_inj in Hk. subst g. by destruct f.
Qed.

(** A whole session from a synced application. *)
Lemma run_synced evs : ∀ a l o,
  synced a l o →
  settled (world a) →
  ∃ a' l' o',
    run evs a = Some a' ∧
    synced a' l' o' ∧
    settled (world a') ∧
    (∀ f cur, o !! key f = Some cur → o' !! key f = Some (typed f evs cur)) ∧
    calls (heap (world a')) (effects (world a')) =
      calls (heap (world a)) (effects (world a)) ++ snapshots evs o ∧
    (∃ more, heap (world a') = heap (world a) ++ more) ∧
    length (effects (world a')) =
      length (effects (world a)) + 2 * submits evs ∧
    count is_log (effects (world a')) =
      count is_log (effects (world a)) + submits evs ∧
    count is_navigate (effects (world a')) =
      count is_navigate (effects (world a)).
Proof.
  induction evs as [|ev evs IH]; intros a l o Hs Hset.
  - exists a, l, o. cbn. rewrite app_nil_r.
    do 5 (split; [done|]).
    split; [exists []; by rewrite app_nil_r|]. repeat split; lia.
  - destruct (step_synced ev a l o Hs) as (a1 & l1 & Hd & Hs1 & Hheap & Heff).
    destruct (settled_step ev a l o a1 Hs Hset Hheap Heff) as (Hset1 & Hcalls).
    destruct (IH a1 l1 _ Hs1 Hset1)
      as (a' & l' & o' & Hrun & Hs' & Hset' & Hty & Hc & (more & Hm)
          & Hl & Hlog & Hnav).
    exists a', l', o'. cbn [run]. rewrite Hd.
    do 3 (split; [done|]).
    split.
    { intros f cur Hcur.
      destruct (typed_cons f ev evs o cur Hcur) as (cur' & Hcur' & ->).
      by apply Hty. }
    split.
    { by rewrite Hc, Hcalls, (snapshots_cons ev evs o), app_assoc. }
    split.
    { exists (allocated_by ev o ++ more).
      by rewrite Hm, Hheap, app_assoc. }
    rewrite Hl, Hlog, Hnav, Heff, length_app, !count_app.
    destruct ev; cbn; lia.
Qed.

End Steps.

Section Sessions.

Lemma reachable_settled a :
  reachable a → ∃ l o, synced a l o ∧ settled (world a).
Proof.
  intros (a0 & evs & Hm & Hr). rewrite mount_eq in Hm. injection Hm as <-.
  destruct good_mounted as (l0 & o0 & Hs0 & _).
  destruct (run_synced evs mounted l0 o0 Hs0 settled_mounted)
    as (a' & l' & o' & Hrun & Hs' & Hset' & _).
  assert (a' = a) as -> by congruence. by exists l', o'.
Qed.

(** A handler of the tree built for [l], run in any world where [l] leads
    to [o]: it copies [o], not the object the hook refers to by then. *)
Lemma onChange_elements l v1 v2 v3 f e w o :
  heap w !! l = Some o →
  onChange (inputs (elements l v1 v2 v3) f) e w =
    Some (tt, {| heap := heap w ++ [<[key f := target_value e]> o];
                 hook := Some (length (heap w));
                 effects := effects w |}).
Proof.
  intros Hl. destruct f; cbn; by erewrite bind_eq by (by apply spread_with_eq).
Qed.

End Sessions.

(** Overwriting: in every reachable state, a change event on an input
    followed by a second change event on the same input leaves the form
    state that the second event alone leaves; the first text is gone. *)
Theorem last_write_wins (a : App) (f : Field) (u v : string) :
  reachable a →
  ∃ a1 a2 o,
    run [Change f {| target_value := v |}] a = Some a1 ∧
    run [Change f {| target_value := u |};
         Change f {| target_value := v |}] a = Some a2 ∧
    FormState_get a1 = Some o ∧
    FormState_get a2 = Some o ∧
    o !! key f = Some v ∧
    ∀ g, displayed a2 g = displayed a1 g.
Proof.
  intros Hr. destruct (reachable_good a Hr) as (l & o & Hs & _).
  destruct (dispatch_Change_synced a l o f {| target_value := v |} Hs)
    as (a1 & l1 & Hd1 & Hs1).
  destruct (dispatch_Change_synced a l o f {| target_value := u |} Hs)
    as (au & lu & Hdu & Hsu).
  destruct (dispatch_Change_synced au lu _ f {| target_value := v |} Hsu)
    as (a2 & l2 & Hd2 & Hs2).
  cbn [target_value] in *. rewrite insert_insert_eq in Hs2.
  exists a1, a2, (<[key f := v]> o). cbn [run]. rewrite Hd1, Hdu, Hd2.
  split; [done|]. split; [done|].
  split; [by apply (FormState_get_synced a1 l1)|].
  split; [by apply (FormState_get_synced a2 l2)|].
  split; [apply lookup_insert_eq|].
  intros g.
  by rewrite (displayed_synced a1 l1 _ Hs1), (displayed_synced a2 l2 _ Hs2).
Qed.

Lemma last_write_wins_witness :
  reachable ada ∧
  ∃ a1 a2 o,
    run [Change Email {| target_value := "ada@y.org" |}] ada = Some a1 ∧
    run [Change Email {| target_value := "ada@" |};
         Change Email {| target_value := "ada@y.org" |}] ada = Some a2 ∧
    FormState_get a1 = Some o ∧
    FormState_get a2 = Some o ∧
    o !! key Email = Some "ada@y.org" ∧
    ∀ g, displayed a2 g = displayed a1 g.
Proof.
  assert (Hr : reachable ada)
    by (exists mounted, ada_events; split; reflexivity).
  split; [exact Hr | exact (last_write_wins ada Email "ada@" "ada@y.org" Hr)].
Defined.

(** After any list of events from mount, each field of the form state
    holds the text of the last change event on its input, or the empty
    string when there was none, and the input displays that text; submit
    events play no part. *)
Theorem field_holds_last_text (evs : list Event) (f : Field) :
  ∃ a o,
    mount ≫= run evs = Some a ∧
    FormState_get a = Some o ∧
    o !! key f = Some (typed f evs "") ∧
    displayed a f = Some (typed f evs "").
Proof.
  rewrite mount_eq. cbn [mbind option_bind].
  destruct good_mounted as (l0 & o0 & Hs0 & _).
  destruct (run_synced evs mounted l0 o0 Hs0 settled_mounted)
    as (a & l & o & Hrun & Hs & _ & Hty & _).
  pose proof (FormState_get_synced mounted l0 o0 Hs0) as Hget0.
  injection Hget0 as <-.
  exists a, o. split; [done|].
  split; [by apply (FormState_get_synced a l)|].
  pose proof (Hty f "" (init_form_lookup f)) as Hf.
  split; [done|]. by rewrite (displayed_synced a l o Hs).
Qed.

(** After any list of events from mount, what the console has been given
    is one call per submit event, oldest first, each with the form state
    as it was when that submit was handled: later edits show in later
    calls only. *)
Theorem console_history (evs : list Event) :
  ∃ a,
    mount ≫= run evs = Some a ∧
    calls (heap (world a)) (effects (world a)) = snapshots evs init_form.
Proof.
  rewrite mount_eq. cbn [mbind option_bind].
  destruct good_mounted as (l0 & o0 & Hs0 & _).
  destruct (run_synced evs mounted l0 o0 Hs0 settled_mounted)
    as (a & l & o & Hrun & _ & _ & _ & Hcalls & _).
  pose proof (FormState_get_synced mounted l0 o0 Hs0) as Hget0.
  injection Hget0 as <-.
  by exists a.
Qed.

(** After any list of events from mount, the trace holds two effects per
    submit event and none for a change event: as many [console.log]
    calls as submits, and no navigation. *)
Theorem effects_come_from_submits (evs : list Event) :
  ∃ a,
    mount ≫= run evs = Some a ∧
    length (effects (world a)) = 2 * submits evs ∧
    count is_log (effects (world a)) = submits evs ∧
    count is_navigate (effects (world a)) = 0.
Proof.
  rewrite mount_eq. cbn [mbind option_bind].
  destruct good_mounted as (l0 & o0 & Hs0 & _).
  destruct (run_synced evs mounted l0 o0 Hs0 settled_mounted)
    as (a & l & o & Hrun & _ & _ & _ & _ & _ & Hlen & Hlog & Hnav).
  by exists a.
Qed.

(** The session with submits between the edits, evaluated. *)
Example busy_session :
  typed Name busy_events "" = "Ada L." ∧
  typed Email busy_events "" = "" ∧
  typed Password busy_events "" = "hunter2" ∧
  submits busy_events = 2 ∧
  snapshots busy_events init_form =
    [[SStr "Signing up with:";
      SObj {[ "name" := "Ada"; "email" := ""; "password" := "" ]}];
     [SStr "Signing up with:";
      SObj {[ "name" := "Ada L."; "email" := ""; "password" := "hunter2" ]}]] ∧
  (mount ≫= run busy_events) ≫= FormState_get =
    Some {[ "name" := "Ada L."; "email" := ""; "password" := "hunter2" ]}.
Proof. vm_compute. done. Qed.

(** Edit, then submit: in every reachable state, a change event on an
    input followed by a submit event hands the console the form state
    with the new text under that input's key (the password input
    included, in clear) and the old values under the other keys: the
    submit handler in use is the one of the render after the edit. *)
Theorem submit_after_edit (a : App) (f : Field) (v : string)
    (e : SubmitEvent) :
  reachable a →
  ∃ o a' o',
    FormState_get a = Some o ∧
    run [Change f {| target_value := v |}; Submit e] a = Some a' ∧
    handed_off a a' = [[SStr "Signing up with:"; SObj o']] ∧
    o' !! key f = Some v ∧
    ∀ g, g ≠ f → o' !! key g = o !! key g.
Proof.
  intros Hr. destruct (reachable_good a Hr) as (l & o & Hs & _).
  destruct (step_synced (Change f {| target_value := v |}) a l o Hs)
    as (a1 & l1 & Hd1 & Hs1 & Hh1 & He1).
  destruct (step_synced (Submit e) a1 l1 _ Hs1)
    as (a2 & l2 & Hd2 & _ & Hh2 & He2).
  cbn [form_of effects_of allocated_by target_value] in *.
  exists o, a2, (<[key f := v]> o). cbn [run]. rewrite Hd1, Hd2.
  split; [by apply (FormState_get_synced a l)|]. split; [done|].
  split.
  - unfold handed_off.
    erewrite since_app by (by rewrite He2, He1, app_nil_r).
    cbn [calls map resolve]. rewrite Hh2, app_nil_r.
    by destruct Hs1 as (_ & -> & _).
  - split; [apply lookup_insert_eq|].
    intros g Hg. apply lookup_insert_ne. intros Hk. by apply key_inj in Hk.
Qed.

Lemma submit_after_edit_witness :
  reachable ada ∧
  ∃ o a' o',
    FormState_get ada = Some o ∧
    run [Change Password {| target_value := "hunter2" |}; Submit submit0] ada
      = Some a' ∧
    handed_off ada a' = [[SStr "Signing up with:"; SObj o']] ∧
    o' !! key Password = Some "hunter2" ∧
    ∀ g, g ≠ Password → o' !! key g = o !! key g.
Proof.
  assert (Hr : reachable ada)
    by (exists mounted, ada_events; split; reflexivity).
  split; [exact Hr | exact (submit_after_edit ada Password "hunter2" submit0 Hr)].
Defined.

(** No copy is made on submit: in every reachable state, two submit
    events in a row pass [console.log] the very reference the hook
    holds, both times, and allocate nothing. *)
Theorem resubmit_same_reference (a : App) (e1 e2 : SubmitEvent) :
  reachable a →
  ∃ l a',
    hook (world a) = Some l ∧
    run [Submit e1; Submit e2] a = Some a' ∧
    since a a' =
      [PreventDefault; ConsoleLog [VStr "Signing up with:"; VRef l];
       PreventDefault; ConsoleLog [VStr "Signing up with:"; VRef l]] ∧
    heap (world a') = heap (world a) ∧
    hook (world a') = Some l.
Proof.
  intros Hr. destruct (reachable_good a Hr) as (l & o & Hs & _).
  pose proof (dispatch_Submit a l o Hs e1) as Hd1.
  set (a1 := {| world := {| heap := heap (world a); hook := hook (world a);
                            effects := (effects (world a) ++ [PreventDefault]) ++
                              [ConsoleLog [VStr "Signing up with:"; VRef l]] |};
                view := view a |}) in *.
  assert (Hs1 : synced a1 l o) by (by destruct Hs as (? & ? & ?)).
  pose proof (dispatch_Submit a1 l o Hs1 e2) as Hd2.
  exists l. eexists. cbn [run]. rewrite Hd1, Hd2.
  split; [by destruct Hs|]. split; [done|].
  split; [|split; [done | by destruct Hs]].
  apply since_app. cbn. by rewrite <- !app_assoc.
Qed.

Lemma resubmit_same_reference_witness :
  reachable ada ∧
  ∃ l a',
    hook (world ada) = Some l ∧
    run [Submit submit0; Submit submit1] ada = Some a' ∧
    since ada a' =
      [PreventDefault; ConsoleLog [VStr "Signing up with:"; VRef l];
       PreventDefault; ConsoleLog [VStr "Signing up with:"; VRef l]] ∧
    heap (world a') = heap (world ada) ∧
    hook (world a') = Some l.
Proof.
  assert (Hr : reachable ada)
    by (exists mounted, ada_events; split; reflexivity).
  split; [exact Hr | exact (resubmit_same_reference ada submit0 submit1 Hr)].
Defined.

(** The handlers copy the [form] of the render that made them.  When the
    handlers of two different inputs of one rendered tree run one after
    the other with no render in between, the second copies the object
    from before the first: after the next render the form state holds the
    second text, and under the first input's key the value from before
    both. *)
Theorem handlers_of_one_render_overwrite (a : App) (f g : Field)
    (u v : string) :
  reachable a →
  f ≠ g →
  ∃ o w1 w2 a2 o2,
    FormState_get a = Some o ∧
    onChange (inputs (view a) f) {| target_value := u |} (world a)
      = Some (tt, w1) ∧
    onChange (inputs (view a) g) {| target_value := v |} w1 = Some (tt, w2) ∧
    render w2 = Some a2 ∧
    FormState_get a2 = Some o2 ∧
    o2 !! key g = Some v ∧
    o2 !! key f = o !! key f.
Proof.
  intros Hr Hfg. destruct (reachable_good a Hr) as (l & o & Hs & _).
  pose proof (onChange_synced a l o Hs f {| target_value := u |}) as H1.
  destruct Hs as (Hh & Hl & Hv).
  set (w1 := {| heap := heap (world a) ++ [<[key f := u]> o];
                hook := Some (length (heap (world a)));
                effects := effects (world a) |}) in *.
  assert (Hl1 : heap w1 !! l = Some o) by (by apply lookup_app_l_Some).
  pose proof (onChange_elements l (o !! "name") (o !! "email")
                (o !! "password") g {| target_value := v |} w1 o Hl1) as H2.
  rewrite <- Hv in H2. cbn [target_value] in H2.
  set (w2 := {| heap := heap w1 ++ [<[key g := v]> o];
                hook := Some (length (heap w1));
                effects := effects w1 |}) in *.
  assert (Hl2 : heap w2 !! length (heap w1) = Some (<[key g := v]> o))
    by (by apply list_lookup_middle).
  pose proof (render_mounted w2 (length (heap w1)) _ eq_refl Hl2) as H3.
  exists o, w1, w2. eexists. exists (<[key g := v]> o).
  split; [unfold FormState_get; by rewrite Hh|].
  split; [exact H1|]. split; [exact H2|]. split; [exact H3|].
  split.
  - unfold FormState_get. cbn [world hook heap].
    by apply lookup_app_l_Some.
  - split; [apply lookup_insert_eq|].
    apply lookup_insert_ne. intros Hk. apply key_inj in Hk. by subst.
Qed.

Lemma handlers_of_one_render_overwrite_witness :
  reachable mounted ∧
  Name ≠ Email ∧
  ∃ o w1 w2 a2 o2,
    FormState_get mounted = Some o ∧
    onChange (inputs (view mounted) Name) {| target_value := "Ada" |}
      (world mounted) = Some (tt, w1) ∧
    onChange (inputs (view mounted) Email) {| target_value := "ada@x.com" |} w1
      = Some (tt, w2) ∧
    render w2 = Some a2 ∧
    FormState_get a2 = Some o2 ∧
    o2 !! key Email = Some "ada@x.com" ∧
    o2 !! key Name = o !! key Name.
Proof.
  assert (Hr : reachable mounted) by (exists mounted, []; split; reflexivity).
  assert (Hne : Name ≠ Email) by discriminate.
  split; [exact Hr|]. split; [exact Hne|].
  exact (handlers_of_one_render_overwrite mounted Name Email "Ada" "ada@x.com"
           Hr Hne).
Defined.

(** The same two handlers, evaluated: the name typed first is lost. *)
Example name_lost_without_render :
  (match onChange (inputs (view mounted) Name) {| target_value := "Ada" |}
           (world mounted) with
   | Some (_, w1) =>
       match onChange (inputs (view mounted) Email)
               {| target_value := "ada@x.com" |} w1 with
       | Some (_, w2) => render w2 ≫= FormState_get
       | None => None
       end
   | None => None
   end)
  = Some {[ "name" := ""; "email" := "ada@x.com"; "password" := "" ]}.
Proof. vm_compute. reflexivity. Qed.

(** Rendering again with no change of state (React may do so at any
    time) is harmless: in every reachable state it leaves the hook, the
    form state, what the inputs display and the trace as they were; the
    object literal passed to [useState] is built once more and ignored.
    The application handles any event afterwards. *)
Theorem rerender_keeps_form (a : App) :
  reachable a →
  ∃ o a',
    render (world a) = Some a' ∧
    FormState_get a = Some o ∧
    FormState_get a' = Some o ∧
    hook (world a') = hook (world a) ∧
    heap (world a') = heap (world a) ++ [init_form] ∧
    effects (world a') = effects (world a) ∧
    (∀ f, displayed a' f = displayed a f) ∧
    ∀ ev, ∃ a2 o2, dispatch ev a' = Some a2 ∧ FormState_get a2 = Some o2 ∧
                   o2 = form_of ev o.
Proof.
  intros Hr. destruct (reachable_good a Hr) as (l & o & Hs & _).
  pose proof Hs as (Hh & Hl & Hv).
  pose proof (render_mounted (world a) l o Hh Hl) as Hrender.
  set (a' := {| world := {| heap := heap (world a) ++ [init_form];
                            hook := Some l; effects := effects (world a) |};
                view := elements l (o !! "name") (o !! "email")
                          (o !! "password") |}) in *.
  assert (Hs' : synced a' l o).
  { split; [done|]. split; [|done]. by apply lookup_app_l_Some. }
  exists o, a'.
  split; [done|].
  split; [by apply (FormState_get_synced a l)|].
  split; [by apply (FormState_get_synced a' l)|].
  split; [by rewrite Hh|]. split; [done|]. split; [done|].
  split.
  - intros f.
    by rewrite (displayed_synced a' l o Hs'), (displayed_synced a l o Hs).
  - intros ev.
    destruct (step_synced ev a' l o Hs') as (a2 & l2 & Hd & Hs2 & _).
    exists a2, (form_of ev o). split; [done|].
    split; [by apply (FormState_get_synced a2 l2)|done].
Qed.

Lemma rerender_keeps_form_witness :
  reachable ada ∧
  ∃ o a',
    render (world ada) = Some a' ∧
    FormState_get ada = Some o ∧
    FormState_get a' = Some o ∧
    hook (world a') = hook (world ada) ∧
    heap (world a') = heap (world ada) ++ [init_form] ∧
    effects (world a') = effects (world ada) ∧
    (∀ f, displayed a' f = displayed ada f) ∧
    ∀ ev, ∃ a2 o2, dispatch ev a' = Some a2 ∧ FormState_get a2 = Some o2 ∧
                   o2 = form_of ev o.
Proof.
  assert (Hr : reachable ada)
    by (exists mounted, ada_events; split; reflexivity).
  split; [exact Hr | exact (rerender_keeps_form ada Hr)].
Defined.

(** Nothing in the heap is ever changed or freed: in every reachable
    state, any list of events runs to its end and leaves the old heap as
    a prefix of the new one, so every object that existed is still at its
    address with the properties it had. *)
Theorem heap_only_grows (a : App) (evs : list Event) :
  reachable a →
  ∃ a' more,
    run evs a = Some a' ∧
    heap (world a') = heap (world a) ++ more ∧
    ∀ p x, heap (world a) !! p = Some x → heap (world a') !! p = Some x.
Proof.
  intros Hr. destruct (reachable_settled a Hr) as (l & o & Hs & Hset).
  destruct (run_synced evs a l o Hs Hset)
    as (a' & _ & _ & Hrun & _ & _ & _ & _ & (more & Hheap) & _).
  exists a', more. split; [done|]. split; [done|].
  intros p x Hp. rewrite Hheap. by apply lookup_app_l_Some.
Qed.

Lemma heap_only_grows_witness :
  reachable ada ∧
  ∃ a' more,
    run busy_events ada = Some a' ∧
    heap (world a') = heap (world ada) ++ more ∧
    ∀ p x, heap (world ada) !! p = Some x → heap (world a') !! p = Some x.
Proof.
  assert (Hr : reachable ada)
    by (exists mounted, ada_events; split; reflexivity).
  split; [exact Hr | exact (heap_only_grows ada busy_events Hr)].
Defined.
